(** * simlab/random_walk.py: random walks over an explicit random source

    The Python module draws from numpy's process-wide generator.  Here the
    generator is an explicit state: a tape of the uniform draws it is going
    to hand out and a cursor on it.  Every function of the module that
    draws becomes a computation in a small state-and-exception monad over
    that state, written in the order the Python code performs its draws.

    Numbers: Python's [int] is unbounded and is modelled by [Z].  The
    floating-point values that matter here (the bias [p], the uniform
    draws, the means) are modelled by exact rationals [Q]; the comparison
    [u < p] of two finite floats is the comparison of the rationals they
    denote, and a mean is the exact quotient, compared with [Qeq]; the
    rounding of float64 is not modelled.  The entries of integer arrays
    are taken in [Z]. *)

From Stdlib Require Import ZArith QArith List Lia Bool Permutation.
Import ListNotations.
Local Open Scope Z_scope.

(** ** The random source and the monad *)

Module Rng.

(** The generator: the draws it will return, and how many were taken. *)
Record t := mk { tape : nat -> Q; cursor : nat }.

Definition advance (n : nat) (g : t) : t := mk (tape g) (cursor g + n).

(** Every draw of the tape lies in the half-open interval [0,1), as
    numpy's uniform sampler guarantees. *)
Definition uniform (g : t) : Prop :=
  forall i : nat, (0 <= tape g i)%Q /\ (tape g i < 1)%Q.

(** A generator that returns the same value forever. *)
Definition const (u : Q) : t := mk (fun _ => u) 0.

(** A generator that returns the listed values, then [d] forever. *)
Definition of_list (us : list Q) (d : Q) : t := mk (fun i => nth i us d) 0.

End Rng.

Inductive exn := ValueError.

Inductive result (A : Type) :=
| Ok (a : A)
| Raise (e : exn).
Arguments Ok {A} a.
Arguments Raise {A} e.

Definition M (A : Type) : Type := Rng.t -> result A * Rng.t.

Definition ret {A} (a : A) : M A := fun g => (Ok a, g).

Definition bind {A B} (m : M A) (k : A -> M B) : M B :=
  fun g =>
    match m g with
    | (Ok a, g') => k a g'
    | (Raise e, g') => (Raise e, g')
    end.

Definition raise {A} (e : exn) : M A := fun g => (Raise e, g).

Notation "x <- m ;; k" := (bind m (fun x => k))
  (at level 61, m at next level, right associativity).
Notation "' pat <- m ;; k" := (bind m (fun x => match x with pat => k end))
  (at level 61, pat pattern, m at next level, right associativity).

(** ** numpy primitives *)

(** [x < y] on floats, as a boolean. *)
Definition Qltb (x y : Q) : bool := negb (Qle_bool y x).

(** [np.random.rand()]: one uniform draw. *)
Definition rand : M Q :=
  fun g => (Ok (Rng.tape g (Rng.cursor g)), Rng.advance 1 g).

(** [np.random.rand(n)]: an array of [n] draws.  numpy refuses a negative
    dimension with [ValueError] and takes nothing from the generator. *)
Definition rand_n (n : Z) : M (list Q) :=
  if n <? 0 then raise ValueError
  else fun g =>
         (Ok (map (fun i => Rng.tape g (Rng.cursor g + i)%nat)
                  (seq 0 (Z.to_nat n))),
          Rng.advance (Z.to_nat n) g).

(** [np.where(cond, 1, -1)] over the array [us < p]. *)
Definition where_lt (us : list Q) (p : Q) : list Z :=
  map (fun u => if Qltb u p then 1 else -1) us.

(** [np.cumsum]: running sums, one per element.  The sums are taken in
    [Z]; see [cumsum64_from] for numpy's int64 accumulator. *)
Fixpoint cumsum_from (acc : Z) (xs : list Z) : list Z :=
  match xs with
  | [] => []
  | x :: xs' => (acc + x) :: cumsum_from (acc + x) xs'
  end.

Definition cumsum (xs : list Z) : list Z := cumsum_from 0 xs.

(** [range(lo, hi)]: the integers from [lo] up to [hi - 1]; empty when
    [hi <= lo]. *)
Definition range (lo hi : Z) : list Z :=
  map (fun i => lo + Z.of_nat i) (seq 0 (Z.to_nat (hi - lo))).

(** ** random_walk_1d *)

Definition random_walk_1d (n_steps : Z) (p : Q) : M (list Z) :=
  us <- rand_n n_steps ;;
  let steps := where_lt us p in
  ret (cumsum steps).

(** ** random_walk_absorbing *)

(** The absorption test [pos <= left or pos >= right]. *)
Definition absorbed (left right pos : Z) : bool :=
  (pos <=? left) || (pos >=? right).

(** How the [for] loop is left: through the [return] inside its body, or
    by running out of ticks, with the loop variables as they stand. *)
Inductive loop_exit :=
| Returned (path : list Z) (t : Z) (pos : Z)
| Exhausted (path : list Z) (pos : Z).

Fixpoint absorbing_loop (left right : Z) (p : Q) (ticks : list Z)
         (pos : Z) (path : list Z) : M loop_exit :=
  match ticks with
  | [] => ret (Exhausted path pos)
  | t :: ticks' =>
      u <- rand ;;
      let step := if Qltb u p then 1 else -1 in
      let pos := pos + step in
      let path := path ++ [pos] in
      if absorbed left right pos then ret (Returned path t pos)
      else absorbing_loop left right p ticks' pos path
  end.

Definition random_walk_absorbing (left right start : Z) (p : Q)
           (max_steps : Z) : M (list Z * Z * Z) :=
  let pos := start in
  let path := [pos] in
  e <- absorbing_loop left right p (range 1 (max_steps + 1)) pos path ;;
  match e with
  | Returned path t pos => ret (path, t, pos)
  | Exhausted path pos => ret (path, max_steps, pos)
  end.

(** The defaults of the signature. *)
Definition default_p : Q := 1 # 2.
Definition default_max_steps : Z := 10000.

(** ** Arrays of floats and their means *)

(** A float64 result: a finite value, or [nan]. *)
Inductive float :=
| Finite (q : Q)
| NaN.

Definition Qsum (xs : list Q) : Q := fold_right Qplus 0%Q xs.

(** [np.mean] of a one-dimensional array: the sum over the count; the
    mean of an empty array is [nan]. *)
Definition np_mean (xs : list Q) : float :=
  match xs with
  | [] => NaN
  | _ => Finite (Qsum xs / inject_Z (Z.of_nat (length xs)))
  end.

(** A boolean array read as numbers, as [np.mean] does. *)
Definition of_bool (b : bool) : Q := if b then 1%Q else 0%Q.

(** [hits == v], elementwise. *)
Definition eq_elementwise (hits : list Z) (v : Z) : list bool :=
  map (fun h => h =? v) hits.

(** ** hitting_time *)

Fixpoint trials_loop (left right start : Z) (idx : list Z)
         (times hits : list Z) : M (list Z * list Z) :=
  match idx with
  | [] => ret (times, hits)
  | _ :: idx' =>
      '(path, t, loc) <-
         random_walk_absorbing left right start default_p default_max_steps ;;
      trials_loop left right start idx' (times ++ [t]) (hits ++ [loc])
  end.

Definition hitting_time (left right n_trials start : Z)
  : M (list Z * (float * float)) :=
  '(times, hits) <- trials_loop left right start (range 0 n_trials) [] [] ;;
  let prob_left := np_mean (map of_bool (eq_elementwise hits left)) in
  let prob_right := np_mean (map of_bool (eq_elementwise hits right)) in
  ret (times, (prob_left, prob_right)).

(** ** mean_squared_displacement *)

(** A two-dimensional integer array: its shape [(n_trials, n_steps)] and
    its rows. *)
Record ndarray2 := mk_ndarray2 {
  shape : nat * nat;
  rows : list (list Z)
}.

Definition well_shaped (a : ndarray2) : Prop :=
  length (rows a) = fst (shape a) /\
  Forall (fun r => length r = snd (shape a)) (rows a).

(** [a ** 2], elementwise. *)
Definition square (a : ndarray2) : ndarray2 :=
  mk_ndarray2 (shape a) (map (map (fun x => x * x)) (rows a)).

(** Column [t] of the array, top to bottom. *)
Definition column (t : nat) (a : ndarray2) : list Z :=
  map (fun r => nth t r 0) (rows a).

(** [np.mean(a, axis=0)]: one mean per column, taken down the rows. *)
Definition mean_axis0 (a : ndarray2) : list float :=
  map (fun t => np_mean (map inject_Z (column t a))) (seq 0 (snd (shape a))).

Definition mean_squared_displacement (walks : ndarray2) : list float :=
  mean_axis0 (square walks).


(** ** Reading results *)

(** [f] is the finite float of value [q]. *)
Definition is_value (f : float) (q : Q) : Prop :=
  match f with
  | Finite x => (x == q)%Q
  | NaN => False
  end.





(** ** Definitions used to state the properties *)

(** What the loop has done when it is left, in terms of the positions
    [new] it appended to the path. *)
Definition loop_post (left right : Z) (ticks : list Z) (pos : Z)
           (path new : list Z) (e : loop_exit) : Prop :=
  match e with
  | Returned path' t pos' =>
      exists before,
        new = before ++ [pos'] /\
        path' = path ++ new /\
        nth_error ticks (length before) = Some t /\
        absorbed left right pos' = true /\
        Forall (fun x => absorbed left right x = false) before
  | Exhausted path' pos' =>
      path' = path ++ new /\
      pos' = last new pos /\
      length new = length ticks /\
      Forall (fun x => absorbed left right x = false) new
  end.

(** The triple the function returns for a given way out of its loop. *)
Definition outcome (max_steps : Z) (e : loop_exit) : list Z * Z * Z :=
  match e with
  | Returned path t pos => (path, t, pos)
  | Exhausted path pos => (path, max_steps, pos)
  end.

(** The loop ran out of ticks. *)
Definition is_exhausted (e : loop_exit) : Prop :=
  match e with
  | Returned _ _ _ => False
  | Exhausted _ _ => True
  end.

(** The step that draw number [i] after the cursor produces. *)
Definition step_at (g : Rng.t) (p : Q) (i : nat) : Z :=
  if Qltb (Rng.tape g (Rng.cursor g + i)) p then 1 else -1.

(** The arithmetic mean over the trials of the squared position at time
    [t], written the way the specification words it. *)
Definition mean_of_squares_at (t : nat) (a : ndarray2) : Q :=
  let n_trials := inject_Z (Z.of_nat (fst (shape a))) in
  let squares := map (fun r => inject_Z (nth t r 0 * nth t r 0)) (rows a) in
  (Qsum squares / n_trials)%Q.

(** ** int64 accumulation

    numpy accumulates [cumsum] of an integer array in 64-bit two's
    complement.  [cumsum64_from] writes the wrap-around out; on unit steps
    it agrees with [cumsum_from] for every length below 2^63
    ([cumsum64_exact] below), which is why the walks are summed in [Z]. *)

Definition wrap64 (z : Z) : Z := (z + 2 ^ 63) mod 2 ^ 64 - 2 ^ 63.

Fixpoint cumsum64_from (acc : Z) (xs : list Z) : list Z :=
  match xs with
  | [] => []
  | x :: xs' => wrap64 (acc + x) :: cumsum64_from (wrap64 (acc + x)) xs'
  end.

(** ** Definitions used to state further properties *)

(** [new] is a walk that leaves [pos] and follows the draws of [g] from
    its cursor on: each position is the one before it plus the step of the
    draw with the same index. *)
Definition walk_from (g : Rng.t) (p : Q) (pos : Z) (new : list Z) : Prop :=
  forall i, (i < length new)%nat ->
    nth i new 0
    = match i with O => pos | S j => nth j new 0 end + step_at g p i.

(** The sum of a list of integers. *)
Definition Zsum (xs : list Z) : Z := fold_right Z.add 0 xs.

(** ** theoretical_msd *)

(** [np.arange(1, n_steps + 1)]. *)
Definition theoretical_msd (n_steps : Z) : list Z := range 1 (n_steps + 1).

(** ** The equally likely walks of a given length *)

(** All sequences of [n] steps, each step +1 or -1: the [2 ^ n] outcomes
    a symmetric walk of [n] steps chooses from with equal probability. *)
Fixpoint all_steps (n : nat) : list (list Z) :=
  match n with
  | O => [[]]
  | S n' => map (cons 1) (all_steps n') ++ map (cons (-1)) (all_steps n')
  end.

(** The batch that holds the walk of each of these step sequences once. *)
Definition all_walks (n : nat) : ndarray2 :=
  mk_ndarray2 (length (all_steps n), n) (map cumsum (all_steps n)).

(** A walk as the generators return it: the first position is one unit
    step away from the origin and neighbours differ by a unit step. *)
Definition unit_walk (w : list Z) : Prop :=
  forall i, (i < length w)%nat ->
    let before := match i with O => 0 | S j => nth j w 0 end in
    nth i w 0 - before = 1 \/ nth i w 0 - before = -1.


(** ** Integer draws

    [np.random.randint] and [np.random.choice] hand out integers rather
    than uniform reals.  Their draws are an explicit input as well: the
    sequence [draws] of the integers the sampler returns, in the order in
    which it fills the requested array.  The sampler's contract (every
    draw lies in the requested range) is the hypothesis [draws_below]. *)

Definition draws_below (high : Z) (draws : nat -> Z) : Prop :=
  forall i : nat, 0 <= draws i < high.

(** [np.random.randint(0, high, size=n)]: an array of [n] draws; a
    negative size is refused with [ValueError]. *)
Definition randint_n (draws : nat -> Z) (n : Z) : result (list Z) :=
  if n <? 0 then Raise ValueError
  else Ok (map draws (seq 0 (Z.to_nat n))).

(** [table[idx]] for an array [idx] of indices within the table. *)
Definition take {A} (d : A) (table : list A) (idx : list Z) : list A :=
  map (fun i => nth (Z.to_nat i) table d) idx.

(** ** random_walk_2d *)

Definition directions : list (Z * Z) := [(1, 0); (-1, 0); (0, 1); (0, -1)].

(** [np.cumsum(_, axis=0)] on an array of coordinate pairs. *)
Fixpoint cumsum2_from (acc : Z * Z) (xs : list (Z * Z)) : list (Z * Z) :=
  match xs with
  | [] => []
  | d :: xs' =>
      let acc' := (fst acc + fst d, snd acc + snd d) in
      acc' :: cumsum2_from acc' xs'
  end.

Definition random_walk_2d (draws : nat -> Z) (n_steps : Z)
  : result (list (Z * Z)) :=
  match randint_n draws n_steps with
  | Raise e => Raise e
  | Ok idx =>
      let choices := take (0, 0) directions idx in
      Ok (cumsum2_from (0, 0) choices)
  end.

(** ** many_walks_1D *)

(** [np.random.choice(a, size=(n_rows, n_cols))]: the entry at row [i],
    column [j] is [a[k]] for the draw [k] number [i * n_cols + j]; a
    negative dimension is refused with [ValueError]. *)
Definition choice (draws : nat -> Z) (a : list Z) (n_rows n_cols : Z)
  : result (list (list Z)) :=
  if (n_rows <? 0) || (n_cols <? 0) then Raise ValueError
  else
    let nc := Z.to_nat n_cols in
    Ok (map (fun i => take 0 a (map (fun j => draws (i * nc + j)%nat)
                                    (seq 0 nc)))
            (seq 0 (Z.to_nat n_rows))).

Definition many_walks_1D (draws : nat -> Z) (n_steps n_trials : Z)
  : result ndarray2 :=
  match choice draws [-1; 1] n_trials n_steps with
  | Raise e => Raise e
  | Ok steps =>
      Ok (mk_ndarray2 (Z.to_nat n_trials, Z.to_nat n_steps)
                      (map cumsum steps))
  end.

(** The displacement from position [i - 1] (the origin for [i = 0]) to
    position [i] of a planar walk. *)
Definition displacement (ps : list (Z * Z)) (i : nat) : Z * Z :=
  let before := match i with O => (0, 0) | S j => nth j ps (0, 0) end in
  (fst (nth i ps (0, 0)) - fst before, snd (nth i ps (0, 0)) - snd before).

(** * Properties *)

(** ** Generator and range facts *)

Lemma advance_0 (g : Rng.t) : Rng.advance 0 g = g.
Proof.
  destruct g as [tp c]. unfold Rng.advance. simpl. now rewrite Nat.add_0_r.
Qed.

Lemma advance_advance (m n : nat) (g : Rng.t) :
  Rng.advance n (Rng.advance m g) = Rng.advance (m + n) g.
Proof.
  unfold Rng.advance. simpl. now rewrite Nat.add_assoc.
Qed.

Lemma range_length (lo hi : Z) : length (range lo hi) = Z.to_nat (hi - lo).
Proof.
  unfold range. now rewrite length_map, length_seq.
Qed.

Lemma range_empty (lo hi : Z) : hi <= lo -> range lo hi = [].
Proof.
  intros H. unfold range.
  replace (Z.to_nat (hi - lo)) with O by lia. reflexivity.
Qed.

Lemma range_nth_error (lo hi : Z) (i : nat) (t : Z) :
  nth_error (range lo hi) i = Some t -> t = lo + Z.of_nat i.
Proof.
  unfold range. intros H.
  rewrite nth_error_map in H.
  destruct (nth_error (seq 0 (Z.to_nat (hi - lo))) i) as [j|] eqn:Hj;
    simpl in H; [|discriminate].
  injection H as <-.
  assert (Hlt : (i < length (seq 0 (Z.to_nat (hi - lo))))%nat).
  { apply nth_error_Some. congruence. }
  rewrite length_seq in Hlt.
  rewrite nth_error_nth' with (d := O) in Hj by now rewrite length_seq.
  rewrite seq_nth in Hj by exact Hlt.
  injection Hj as <-. reflexivity.
Qed.

Lemma last_cons {A} (x d : A) (l : list A) : last (x :: l) d = last l x.
Proof.
  revert x d. induction l as [|y l IH]; intros x d; [reflexivity|].
  change (last (x :: y :: l) d) with (last (y :: l) d).
  now rewrite !IH.
Qed.

(** ** The loop of the absorbing walk *)

Lemma absorbing_loop_sound (left right : Z) (p : Q) (ticks : list Z) :
  forall (pos : Z) (path : list Z) (g : Rng.t),
  exists new e,
    absorbing_loop left right p ticks pos path g
      = (Ok e, Rng.advance (length new) g) /\
    loop_post left right ticks pos path new e.
Proof.
  induction ticks as [|t ticks IH]; intros pos path g.
  - exists [], (Exhausted path pos). simpl. split.
    + unfold ret. now rewrite advance_0.
    + repeat split; auto. now rewrite app_nil_r.
  - simpl. unfold bind at 1. unfold rand.
    set (pos' := pos + (if Qltb (Rng.tape g (Rng.cursor g)) p then 1 else -1)).
    destruct (absorbed left right pos') eqn:Ha.
    + exists [pos'], (Returned (path ++ [pos']) t pos'). split.
      * reflexivity.
      * exists []. repeat split; auto.
    + destruct (IH pos' (path ++ [pos']) (Rng.advance 1 g))
        as (new & e & Hrun & Hpost).
      exists (pos' :: new), e. split.
      * rewrite Hrun, advance_advance. reflexivity.
      * destruct e as [path' t' pos''|path' pos'']; cbn [loop_post] in *.
        -- destruct Hpost as (before & -> & -> & Hnth & Habs & Hall).
           exists (pos' :: before). repeat split; auto.
           now rewrite <- app_assoc.
        -- destruct Hpost as (-> & -> & Hlen & Hall).
           repeat split; auto.
           ++ now rewrite <- app_assoc.
           ++ now rewrite last_cons.
           ++ simpl. now rewrite Hlen.
Qed.

(** Inside the boundaries a unit step can only land on a boundary, never
    beyond it. *)
Lemma absorbing_loop_inside (left right : Z) (p : Q) (ticks : list Z) :
  forall (pos : Z) (path : list Z) (g : Rng.t),
    left < pos < right ->
    match fst (absorbing_loop left right p ticks pos path g) with
    | Ok (Returned _ _ pos') => pos' = left \/ pos' = right
    | Ok (Exhausted _ pos') => left < pos' < right
    | Raise _ => False
    end.
Proof.
  induction ticks as [|t ticks IH]; intros pos path g Hin.
  - exact Hin.
  - simpl. unfold bind at 1. unfold rand.
    set (pos' := pos + (if Qltb (Rng.tape g (Rng.cursor g)) p then 1 else -1)).
    assert (Hstep : pos' = pos + 1 \/ pos' = pos - 1).
    { subst pos'. destruct (Qltb _ _); lia. }
    destruct (absorbed left right pos') eqn:Ha.
    + simpl. unfold absorbed in Ha. apply orb_true_iff in Ha. lia.
    + apply IH. unfold absorbed in Ha. apply orb_false_iff in Ha. lia.
Qed.

(** ** random_walk_absorbing as a whole *)

Lemma random_walk_absorbing_unfold (left right start : Z) (p : Q)
      (max_steps : Z) (g g' : Rng.t) (e : loop_exit) :
  absorbing_loop left right p (range 1 (max_steps + 1)) start [start] g
    = (Ok e, g') ->
  random_walk_absorbing left right start p max_steps g
    = (Ok (outcome max_steps e), g').
Proof.
  intros H. unfold random_walk_absorbing, bind. rewrite H.
  now destruct e.
Qed.

Lemma random_walk_absorbing_run (left right start : Z) (p : Q)
      (max_steps : Z) (g : Rng.t) :
  exists new e,
    absorbing_loop left right p (range 1 (max_steps + 1)) start [start] g
      = (Ok e, Rng.advance (length new) g) /\
    random_walk_absorbing left right start p max_steps g
      = (Ok (outcome max_steps e), Rng.advance (length new) g) /\
    loop_post left right (range 1 (max_steps + 1)) start [start] new e.
Proof.
  destruct (absorbing_loop_sound left right p (range 1 (max_steps + 1))
              start [start] g) as (new & e & Hrun & Hpost).
  exists new, e. repeat split; auto.
  now apply random_walk_absorbing_unfold.
Qed.

Lemma range_1_length (max_steps : Z) :
  length (range 1 (max_steps + 1)) = Z.to_nat max_steps.
Proof.
  rewrite range_length. f_equal. lia.
Qed.

(** C1. With [left < start < right], a walk that stops on the absorption
    test stops exactly on [left] or on [right], never beyond; a returned
    location strictly between the boundaries means that the loop ran out
    of ticks. *)
Theorem absorbed_exactly_on_a_boundary
        (left right start : Z) (p : Q) (max_steps : Z) (g : Rng.t)
        (Hstart : left < start < right) :
  exists path t loc g' e,
    random_walk_absorbing left right start p max_steps g
      = (Ok (path, t, loc), g') /\
    absorbing_loop left right p (range 1 (max_steps + 1)) start [start] g
      = (Ok e, g') /\
    (e = Returned path t loc -> loc = left \/ loc = right) /\
    (loc <= left \/ loc >= right -> loc = left \/ loc = right) /\
    (left < loc < right -> is_exhausted e).
Proof.
  destruct (random_walk_absorbing_run left right start p max_steps g)
    as (new & e & Hloop & Hrun & _).
  pose proof (absorbing_loop_inside left right p (range 1 (max_steps + 1))
                start [start] g Hstart) as Hin.
  rewrite Hloop in Hin. simpl in Hin.
  destruct e as [path t loc|path loc]; simpl in Hrun.
  - exists path, t, loc, (Rng.advance (length new) g), (Returned path t loc).
    repeat split; auto. simpl. lia.
  - exists path, max_steps, loc, (Rng.advance (length new) g),
      (Exhausted path loc).
    repeat split; auto; try discriminate. lia.
Qed.

Lemma absorbed_exactly_on_a_boundary_witness :
  -1 < 0 < 1 /\
  exists path t loc g' e,
    random_walk_absorbing (-1) 1 0 (1 # 2) 3 (Rng.const 0)
      = (Ok (path, t, loc), g') /\
    absorbing_loop (-1) 1 (1 # 2) (range 1 (3 + 1)) 0 [0] (Rng.const 0)
      = (Ok e, g') /\
    (e = Returned path t loc -> loc = -1 \/ loc = 1) /\
    (loc <= -1 \/ loc >= 1 -> loc = -1 \/ loc = 1) /\
    (-1 < loc < 1 -> is_exhausted e).
Proof.
  split; [lia|].
  apply (absorbed_exactly_on_a_boundary (-1) 1 0 (1 # 2) 3 (Rng.const 0)).
  lia.
Defined.

(** The shape of every result: [n] is the number of iterations the loop
    performed, each of which took one draw from the generator. *)
Lemma random_walk_absorbing_shape (left right start : Z) (p : Q)
      (max_steps : Z) (g : Rng.t) :
  exists path t loc n,
    random_walk_absorbing left right start p max_steps g
      = (Ok (path, t, loc), Rng.advance n g) /\
    hd_error path = Some start /\
    last path start = loc /\
    length path = S n /\
    (n <= Z.to_nat max_steps)%nat /\
    ((t = Z.of_nat n /\ (1 <= n)%nat /\
      absorbed left right (nth n path 0) = true /\
      forall i, (1 <= i < n)%nat -> absorbed left right (nth i path 0) = false)
     \/
     (t = max_steps /\ n = Z.to_nat max_steps /\
      forall i, (1 <= i <= n)%nat -> absorbed left right (nth i path 0) = false)).
Proof.
  destruct (random_walk_absorbing_run left right start p max_steps g)
    as (new & e & _ & Hrun & Hpost).
  destruct e as [path t loc|path loc]; cbn [loop_post outcome] in *.
  - destruct Hpost as (before & -> & -> & Hnth & Habs & Hall).
    exists ([start] ++ before ++ [loc]), t, loc, (length (before ++ [loc])).
    assert (Hlt : (length before < Z.to_nat max_steps)%nat).
    { rewrite <- range_1_length. apply nth_error_Some. congruence. }
    apply range_nth_error in Hnth.
    rewrite length_app in *. simpl length in *.
    split; [exact Hrun|]. split; [reflexivity|].
    split. { simpl app. rewrite last_cons. apply last_last. }
    split. { simpl. now rewrite length_app. }
    split; [lia|]. left.
    split; [lia|]. split; [lia|]. split.
    + replace (length before + 1)%nat with (S (length before)) by lia.
      simpl. now rewrite nth_middle.
    + intros i Hi. destruct i as [|i]; [lia|]. simpl.
      rewrite app_nth1 by lia.
      rewrite Forall_forall in Hall. apply Hall, nth_In. lia.
  - destruct Hpost as (-> & -> & Hlen & Hall).
    rewrite range_1_length in Hlen.
    exists ([start] ++ new), max_steps, (last new start), (length new).
    split; [exact Hrun|]. split; [reflexivity|].
    split. { simpl app. apply last_cons. }
    split; [reflexivity|]. split; [lia|]. right.
    split; [reflexivity|]. split; [exact Hlen|].
    intros i Hi. destruct i as [|i]; [lia|]. simpl.
    rewrite Forall_forall in Hall. apply Hall, nth_In. lia.
Qed.




(** C3. With a budget of at least one tick the walk always takes a step
    (and a draw) before the absorption test is first made, wherever
    [start] lies: the hit time is at least 1 and the path has at least
    two elements. *)
Theorem step_before_first_check
        (left right start : Z) (p : Q) (max_steps : Z) (g : Rng.t)
        (Hbudget : 1 <= max_steps) :
  exists path t loc n,
    random_walk_absorbing left right start p max_steps g
      = (Ok (path, t, loc), Rng.advance n g) /\
    (1 <= n)%nat /\
    1 <= t /\
    (2 <= length path)%nat.
Proof.
  destruct (random_walk_absorbing_shape left right start p max_steps g)
    as (path & t & loc & n & Hrun & _ & _ & Hlen & _ & Hcase).
  exists path, t, loc, n. split; [exact Hrun|].
  destruct Hcase as [(-> & H1 & _)|(-> & -> & _)]; lia.
Qed.

Lemma step_before_first_check_witness :
  1 <= 1 /\
  exists path t loc n,
    random_walk_absorbing 0 0 5 (1 # 2) 1 (Rng.const 0)
      = (Ok (path, t, loc), Rng.advance n (Rng.const 0)) /\
    (1 <= n)%nat /\
    1 <= t /\
    (2 <= length path)%nat.
Proof.
  split; [lia|].
  apply (step_before_first_check 0 0 5 (1 # 2) 1 (Rng.const 0)). lia.
Defined.

(** C4. The function returns on every input, whatever the bias and the
    boundaries: the loop performs [n] iterations (one draw each) with [n]
    at most [max_steps] (and none when [max_steps] is not positive), and
    the hit time never exceeds [max_steps]. *)
Theorem budget_bounds_the_loop
        (left right start : Z) (p : Q) (max_steps : Z) (g : Rng.t) :
  exists path t loc n,
    random_walk_absorbing left right start p max_steps g
      = (Ok (path, t, loc), Rng.advance n g) /\
    (n <= Z.to_nat max_steps)%nat /\
    Z.of_nat n <= Z.max 0 max_steps /\
    t <= max_steps.
Proof.
  destruct (random_walk_absorbing_shape left right start p max_steps g)
    as (path & t & loc & n & Hrun & _ & _ & _ & Hn & Hcase).
  exists path, t, loc, n. split; [exact Hrun|].
  destruct Hcase as [(-> & H1 & _)|(-> & -> & _)]; lia.
Qed.

(** C10. A budget that is not positive leaves no tick to run: no draw is
    taken, the path is [[start]], the hit time is [max_steps] itself and
    the location is [start], wherever [start] lies; when [max_steps] is
    negative so is the hit time, and the path length is not
    [hit_time + 1]. *)
Theorem no_step_without_budget
        (left right start : Z) (p : Q) (max_steps : Z) (g : Rng.t)
        (Hbudget : max_steps <= 0) :
  exists path t loc,
    random_walk_absorbing left right start p max_steps g
      = (Ok (path, t, loc), g) /\
    path = [start] /\ t = max_steps /\ loc = start /\
    (max_steps < 0 -> t < 0 /\ Z.of_nat (length path) <> t + 1).
Proof.
  exists [start], max_steps, start.
  split.
  - unfold random_walk_absorbing.
    rewrite range_empty by lia. reflexivity.
  - repeat split; auto. simpl. lia.
Qed.

Lemma no_step_without_budget_witness :
  -2 <= 0 /\
  exists path t loc,
    random_walk_absorbing (-1) 1 7 (1 # 2) (-2) (Rng.const 0)
      = (Ok (path, t, loc), Rng.const 0) /\
    path = [7] /\ t = -2 /\ loc = 7 /\
    (-2 < 0 -> t < 0 /\ Z.of_nat (length path) <> t + 1).
Proof.
  split; [lia|].
  apply (no_step_without_budget (-1) 1 7 (1 # 2) (-2) (Rng.const 0)). lia.
Defined.

(** C6. On a generator whose draws all lie in [0,1) the two degenerate
    biases fix the walk: with [p = 1] the first step is up and the walk is
    absorbed on the right at tick 1; with [p = 0] it is down and the walk
    is absorbed on the left at tick 1.  One draw is taken in each case. *)
Theorem degenerate_bias_is_deterministic (g : Rng.t) (Hg : Rng.uniform g) :
  random_walk_absorbing (-1) 1 0 1 100 g
    = (Ok ([0; 1], 1, 1), Rng.advance 1 g) /\
  random_walk_absorbing (-1) 1 0 0 100 g
    = (Ok ([0; -1], 1, -1), Rng.advance 1 g).
Proof.
  destruct (Hg (Rng.cursor g)) as [H0 H1].
  assert (Hup : Qltb (Rng.tape g (Rng.cursor g)) 1 = true).
  { unfold Qltb. destruct (Qle_bool 1 (Rng.tape g (Rng.cursor g))) eqn:E;
      [|reflexivity].
    apply Qle_bool_iff in E. exfalso. exact (Qlt_not_le _ _ H1 E). }
  assert (Hdown : Qltb (Rng.tape g (Rng.cursor g)) 0 = false).
  { unfold Qltb. apply Qle_bool_iff in H0. now rewrite H0. }
  split.
  - apply (random_walk_absorbing_unfold (-1) 1 0 1 100 g _
             (Returned [0; 1] 1 1)).
    change (range 1 (100 + 1)) with (1 :: range 2 101).
    cbn [absorbing_loop]. unfold bind, rand. rewrite Hup. reflexivity.
  - apply (random_walk_absorbing_unfold (-1) 1 0 0 100 g _
             (Returned [0; -1] 1 (-1))).
    change (range 1 (100 + 1)) with (1 :: range 2 101).
    cbn [absorbing_loop]. unfold bind, rand. rewrite Hdown. reflexivity.
Qed.

Lemma const_uniform (u : Q) :
  (0 <= u)%Q -> (u < 1)%Q -> Rng.uniform (Rng.const u).
Proof.
  intros H0 H1 i. split; assumption.
Qed.

Lemma degenerate_bias_is_deterministic_witness :
  Rng.uniform (Rng.const (1 # 2)) /\
  random_walk_absorbing (-1) 1 0 1 100 (Rng.const (1 # 2))
    = (Ok ([0; 1], 1, 1), Rng.advance 1 (Rng.const (1 # 2))) /\
  random_walk_absorbing (-1) 1 0 0 100 (Rng.const (1 # 2))
    = (Ok ([0; -1], 1, -1), Rng.advance 1 (Rng.const (1 # 2))).
Proof.
  assert (H : Rng.uniform (Rng.const (1 # 2))).
  { apply const_uniform; [unfold Qle|unfold Qlt]; simpl; lia. }
  split; [exact H|].
  apply (degenerate_bias_is_deterministic (Rng.const (1 # 2)) H).
Defined.

(** ** random_walk_1d *)

Lemma cumsum_from_length (xs : list Z) :
  forall acc, length (cumsum_from acc xs) = length xs.
Proof.
  induction xs as [|x xs IH]; intros acc; simpl; [reflexivity|].
  now rewrite IH.
Qed.

(** Each running sum is the one before it (or the start value) plus the
    element at the same index. *)
Lemma cumsum_from_nth (xs : list Z) :
  forall acc i, (i < length xs)%nat ->
    nth i (cumsum_from acc xs) 0
    = match i with
      | O => acc
      | S j => nth j (cumsum_from acc xs) 0
      end + nth i xs 0.
Proof.
  induction xs as [|x xs IH]; intros acc i Hi; simpl in Hi; [lia|].
  destruct i as [|j]; [reflexivity|].
  cbn [cumsum_from nth].
  rewrite IH by lia.
  destruct j; reflexivity.
Qed.

Lemma wrap64_small (z : Z) : - 2 ^ 63 <= z < 2 ^ 63 -> wrap64 z = z.
Proof.
  intros H. unfold wrap64. rewrite Z.mod_small; lia.
Qed.

(** Sums of unit steps never leave the int64 range, so the wrap-around of
    numpy's accumulator is never exercised. *)
Lemma cumsum64_exact (xs : list Z) :
  Forall (fun x => x = 1 \/ x = -1) xs ->
  forall acc,
    - 2 ^ 63 <= acc - Z.of_nat (length xs) ->
    acc + Z.of_nat (length xs) < 2 ^ 63 ->
    cumsum64_from acc xs = cumsum_from acc xs.
Proof.
  induction 1 as [|x xs Hx _ IH]; intros acc Hlo Hhi; [reflexivity|].
  cbn [cumsum64_from cumsum_from]. cbn [length] in Hlo, Hhi.
  rewrite wrap64_small by lia.
  f_equal. apply IH; lia.
Qed.

Lemma where_lt_nth (us : list Q) (p : Q) (i : nat) :
  (i < length us)%nat ->
  nth i (where_lt us p) 0 = if Qltb (nth i us 0%Q) p then 1 else -1.
Proof.
  intros Hi. unfold where_lt.
  rewrite nth_indep with (d' := if Qltb 0%Q p then 1 else -1)
    by now rewrite length_map.
  now rewrite map_nth with (f := fun u => if Qltb u p then 1 else -1).
Qed.

Lemma step_at_unit (g : Rng.t) (p : Q) (i : nat) :
  step_at g p i = 1 \/ step_at g p i = -1.
Proof.
  unfold step_at. destruct (Qltb _ _); auto.
Qed.

Lemma random_walk_1d_run (n_steps : Z) (p : Q) (g : Rng.t) :
  0 <= n_steps ->
  exists xs,
    random_walk_1d n_steps p g = (Ok xs, Rng.advance (Z.to_nat n_steps) g) /\
    length xs = Z.to_nat n_steps /\
    forall i, (i < length xs)%nat ->
      nth i xs 0 = match i with O => 0 | S j => nth j xs 0 end + step_at g p i.
Proof.
  intros Hn.
  set (us := map (fun i => Rng.tape g (Rng.cursor g + i)%nat)
                 (seq 0 (Z.to_nat n_steps))).
  assert (Hlen : length us = Z.to_nat n_steps).
  { subst us. now rewrite length_map, length_seq. }
  exists (cumsum (where_lt us p)). split; [|split].
  - unfold random_walk_1d, bind, rand_n.
    destruct (n_steps <? 0) eqn:E; [lia|]. reflexivity.
  - unfold cumsum, where_lt. now rewrite cumsum_from_length, length_map.
  - unfold cumsum. intros i Hi.
    rewrite cumsum_from_length in Hi. unfold where_lt in Hi.
    rewrite length_map in Hi.
    rewrite cumsum_from_nth by (unfold where_lt; now rewrite length_map).
    rewrite where_lt_nth by exact Hi.
    f_equal. unfold step_at. subst us.
    rewrite nth_indep with (d' := Rng.tape g (Rng.cursor g + 0)%nat)
      by exact Hi.
    rewrite map_nth with (f := fun i => Rng.tape g (Rng.cursor g + i)%nat).
    rewrite seq_nth by lia. reflexivity.
Qed.

(** C7, as amended.  For [n_steps = 0] the walk is the empty sequence and
    no draw is taken; for [n_steps < 0] the call raises [ValueError],
    because [np.random.rand] refuses a negative dimension. *)
Theorem random_walk_1d_no_steps (n_steps : Z) (p : Q) (g : Rng.t)
        (Hn : n_steps <= 0) :
  random_walk_1d n_steps p g
  = (if n_steps =? 0 then Ok [] else Raise ValueError, g).
Proof.
  unfold random_walk_1d, bind, rand_n.
  destruct (n_steps <? 0) eqn:E.
  - destruct (n_steps =? 0) eqn:E0; [lia|reflexivity].
  - assert (n_steps = 0) as -> by lia. simpl. unfold ret.
    now rewrite advance_0.
Qed.

Lemma random_walk_1d_no_steps_witness :
  0 <= 0 /\
  random_walk_1d 0 (1 # 2) (Rng.const 0) = (Ok [], Rng.const 0).
Proof.
  split; [lia|].
  apply (random_walk_1d_no_steps 0 (1 # 2) (Rng.const 0)). lia.
Defined.

(** C7 as stated fails for a negative step count: the call raises. *)
Lemma random_walk_1d_negative_raises :
  random_walk_1d (-1) (1 # 2) (Rng.const 0) = (Raise ValueError, Rng.const 0).
Proof.
  reflexivity.
Qed.

(** C8. For [n_steps >= 1] and any bias the walk has exactly [n_steps]
    positions, the first is +1 or -1, every later position differs from
    the one before it by exactly +1 or -1, and that difference is the step
    of the draw with the same index (the starting position 0 is not part
    of the sequence). *)
Theorem random_walk_1d_unit_steps (n_steps : Z) (p : Q) (g : Rng.t)
        (Hn : 1 <= n_steps) :
  exists xs,
    random_walk_1d n_steps p g = (Ok xs, Rng.advance (Z.to_nat n_steps) g) /\
    Z.of_nat (length xs) = n_steps /\
    (nth 0 xs 0 = 1 \/ nth 0 xs 0 = -1) /\
    nth 0 xs 0 = 0 + step_at g p 0 /\
    forall i, (S i < length xs)%nat ->
      nth (S i) xs 0 = nth i xs 0 + step_at g p (S i) /\
      (nth (S i) xs 0 - nth i xs 0 = 1 \/ nth (S i) xs 0 - nth i xs 0 = -1).
Proof.
  destruct (random_walk_1d_run n_steps p g) as (xs & Hrun & Hlen & Hnth);
    [lia|].
  exists xs. split; [exact Hrun|]. split; [lia|].
  assert (H0 : nth 0 xs 0 = 0 + step_at g p 0) by (apply (Hnth O); lia).
  split; [|split; [exact H0|]].
  - rewrite H0. destruct (step_at_unit g p 0) as [-> | ->]; auto.
  - intros i Hi. pose proof (Hnth (S i) Hi) as HS. cbn beta iota in HS.
    split; [exact HS|].
    rewrite HS. destruct (step_at_unit g p (S i)) as [-> | ->]; lia.
Qed.

Lemma random_walk_1d_unit_steps_witness :
  1 <= 3 /\
  exists xs,
    random_walk_1d 3 (1 # 2) (Rng.const 0)
      = (Ok xs, Rng.advance (Z.to_nat 3) (Rng.const 0)) /\
    Z.of_nat (length xs) = 3 /\
    (nth 0 xs 0 = 1 \/ nth 0 xs 0 = -1) /\
    nth 0 xs 0 = 0 + step_at (Rng.const 0) (1 # 2) 0 /\
    forall i, (S i < length xs)%nat ->
      nth (S i) xs 0 = nth i xs 0 + step_at (Rng.const 0) (1 # 2) (S i) /\
      (nth (S i) xs 0 - nth i xs 0 = 1 \/ nth (S i) xs 0 - nth i xs 0 = -1).
Proof.
  split; [lia|].
  apply (random_walk_1d_unit_steps 3 (1 # 2) (Rng.const 0)). lia.
Defined.

(** ** mean_squared_displacement *)

Lemma np_mean_nonempty (xs : list Q) :
  xs <> [] ->
  np_mean xs = Finite (Qsum xs / inject_Z (Z.of_nat (length xs))).
Proof.
  destruct xs; [congruence|reflexivity].
Qed.

Lemma column_square (t : nat) (a : ndarray2) :
  column t (square a) = map (fun r => nth t r 0 * nth t r 0) (rows a).
Proof.
  unfold column, square. simpl. rewrite map_map.
  apply map_ext. intros r.
  change 0 with ((fun x => x * x) 0) at 1.
  now rewrite map_nth.
Qed.

Lemma msd_length (a : ndarray2) :
  length (mean_squared_displacement a) = snd (shape a).
Proof.
  unfold mean_squared_displacement, mean_axis0.
  now rewrite length_map, length_seq.
Qed.

Lemma msd_nth (a : ndarray2) (t : nat) :
  (t < snd (shape a))%nat ->
  nth t (mean_squared_displacement a) NaN
  = np_mean (map inject_Z (column t (square a))).
Proof.
  intros Ht. unfold mean_squared_displacement, mean_axis0.
  rewrite nth_indep
    with (d' := np_mean (map inject_Z (column O (square a))))
    by (now rewrite length_map, length_seq).
  rewrite map_nth
    with (f := fun t => np_mean (map inject_Z (column t (square a)))).
  now rewrite seq_nth.
Qed.

Lemma msd_general (a : ndarray2) (t : nat) :
  well_shaped a -> (1 <= fst (shape a))%nat -> (t < snd (shape a))%nat ->
  is_value (nth t (mean_squared_displacement a) NaN) (mean_of_squares_at t a).
Proof.
  intros [Hrows _] Hk Ht.
  rewrite msd_nth by exact Ht.
  rewrite column_square, map_map.
  rewrite np_mean_nonempty.
  - simpl. rewrite length_map, Hrows. unfold mean_of_squares_at.
    reflexivity.
  - destruct (rows a); simpl in *; [lia|discriminate].
Qed.






(** ** hitting_time *)










(** * Further properties *)

(** ** The path of the absorbing walk *)

Lemma step_at_advance (g : Rng.t) (p : Q) (i : nat) :
  step_at (Rng.advance 1 g) p i = step_at g p (S i).
Proof.
  unfold step_at, Rng.advance. simpl.
  now replace (Rng.cursor g + 1 + i)%nat with (Rng.cursor g + S i)%nat by lia.
Qed.

Lemma step_at_0 (g : Rng.t) (p : Q) :
  step_at g p 0 = if Qltb (Rng.tape g (Rng.cursor g)) p then 1 else -1.
Proof.
  unfold step_at. now rewrite Nat.add_0_r.
Qed.

(** The loop again, now with the link between the appended positions and
    the draws. *)
Lemma absorbing_loop_trace (left right : Z) (p : Q) (ticks : list Z) :
  forall (pos : Z) (path : list Z) (g : Rng.t),
  exists new e,
    absorbing_loop left right p ticks pos path g
      = (Ok e, Rng.advance (length new) g) /\
    loop_post left right ticks pos path new e /\
    walk_from g p pos new.
Proof.
  induction ticks as [|t ticks IH]; intros pos path g.
  - exists [], (Exhausted path pos). simpl. split; [|split].
    + unfold ret. now rewrite advance_0.
    + repeat split; auto. now rewrite app_nil_r.
    + intros i Hi. simpl in Hi. lia.
  - simpl. unfold bind at 1. unfold rand.
    rewrite <- step_at_0.
    set (pos' := pos + step_at g p 0).
    destruct (absorbed left right pos') eqn:Ha.
    + exists [pos'], (Returned (path ++ [pos']) t pos'). split; [|split].
      * reflexivity.
      * exists []. repeat split; auto.
      * intros i Hi. simpl in Hi. assert (i = O) as -> by lia. reflexivity.
    + destruct (IH pos' (path ++ [pos']) (Rng.advance 1 g))
        as (new & e & Hrun & Hpost & Hwalk).
      exists (pos' :: new), e. split; [|split].
      * rewrite Hrun, advance_advance. reflexivity.
      * destruct e as [path' t' pos''|path' pos'']; cbn [loop_post] in *.
        -- destruct Hpost as (before & -> & -> & Hnth & Habs & Hall).
           exists (pos' :: before). repeat split; auto.
           now rewrite <- app_assoc.
        -- destruct Hpost as (-> & -> & Hlen & Hall).
           repeat split; auto.
           ++ now rewrite <- app_assoc.
           ++ now rewrite last_cons.
           ++ simpl. now rewrite Hlen.
      * intros i Hi. destruct i as [|i]; [reflexivity|].
        simpl in Hi. cbn [nth].
        rewrite (Hwalk i) by lia. rewrite step_at_advance.
        destruct i; reflexivity.
Qed.

Lemma last_is_nth {A} (l : list A) (d : A) :
  last l d = nth (length l - 1) l d.
Proof.
  induction l as [|x l IH]; [reflexivity|].
  destruct l as [|y l]; [reflexivity|].
  change (last (x :: y :: l) d) with (last (y :: l) d). rewrite IH.
  simpl. now rewrite Nat.sub_0_r.
Qed.

(** Everything the extra properties need about one call: [n] iterations,
    the path of [n + 1] positions that follows the draws, and how the
    loop was left. *)
Lemma random_walk_absorbing_trace (left right start : Z) (p : Q)
      (max_steps : Z) (g : Rng.t) :
  exists path t loc n,
    random_walk_absorbing left right start p max_steps g
      = (Ok (path, t, loc), Rng.advance n g) /\
    length path = S n /\
    nth 0 path 0 = start /\
    nth n path 0 = loc /\
    (forall i, (i < n)%nat -> nth (S i) path 0 = nth i path 0 + step_at g p i) /\
    (n <= Z.to_nat max_steps)%nat /\
    ((t = Z.of_nat n /\ (1 <= n)%nat /\
      absorbed left right loc = true /\
      forall i, (1 <= i < n)%nat -> absorbed left right (nth i path 0) = false)
     \/
     (t = max_steps /\ n = Z.to_nat max_steps /\
      forall i, (1 <= i <= n)%nat -> absorbed left right (nth i path 0) = false)).
Proof.
  destruct (absorbing_loop_trace left right p (range 1 (max_steps + 1))
              start [start] g) as (new & e & Hloop & Hpost & Hwalk).
  pose proof (random_walk_absorbing_unfold _ _ _ _ _ _ _ _ Hloop) as Hrun.
  assert (Hsteps : forall i, (i < length new)%nat ->
            nth (S i) (start :: new) 0
            = nth i (start :: new) 0 + step_at g p i).
  { intros i Hi. cbn [nth]. rewrite (Hwalk i Hi). destruct i; reflexivity. }
  destruct e as [path t loc|path loc]; cbn [loop_post outcome] in *.
  - destruct Hpost as (before & Enew & -> & Hnth & Habs & Hall).
    assert (Hlt : (length before < Z.to_nat max_steps)%nat).
    { rewrite <- range_1_length. apply nth_error_Some. congruence. }
    apply range_nth_error in Hnth.
    assert (Hlen : length new = S (length before)).
    { rewrite Enew, length_app. simpl. lia. }
    exists ([start] ++ new), t, loc, (length new).
    split; [exact Hrun|]. split; [reflexivity|]. split; [reflexivity|].
    split. { rewrite Hlen, Enew. simpl. now rewrite nth_middle. }
    split; [exact Hsteps|]. split; [lia|]. left.
    split; [lia|]. split; [lia|]. split; [exact Habs|].
    intros i Hi. destruct i as [|i]; [lia|]. simpl. rewrite Enew.
    rewrite app_nth1 by lia.
    rewrite Forall_forall in Hall. apply Hall, nth_In. lia.
  - destruct Hpost as (-> & -> & Hlen & Hall).
    rewrite range_1_length in Hlen.
    exists ([start] ++ new), max_steps, (last new start), (length new).
    split; [exact Hrun|]. split; [reflexivity|]. split; [reflexivity|].
    split.
    { simpl app. rewrite <- (last_cons start 0 new), last_is_nth.
      simpl. now rewrite Nat.sub_0_r. }
    split; [exact Hsteps|]. split; [lia|]. right.
    split; [reflexivity|]. split; [exact Hlen|].
    intros i Hi. destruct i as [|i]; [lia|]. simpl.
    rewrite Forall_forall in Hall. apply Hall, nth_In. lia.
Qed.

(** A list whose neighbours differ by unit steps is, at index [i], the
    first element plus [i] minus twice the number [k] of steps down. *)
Lemma unit_walk_position (path : list Z) (n : nat) (step : nat -> Z) :
  (forall i, step i = 1 \/ step i = -1) ->
  (forall i, (i < n)%nat -> nth (S i) path 0 = nth i path 0 + step i) ->
  forall i, (i <= n)%nat ->
    exists k, nth i path 0 = nth 0 path 0 + Z.of_nat i - 2 * k /\
              0 <= k <= Z.of_nat i.
Proof.
  intros Hunit Hstep i. induction i as [|i IH]; intros Hi.
  - exists 0. lia.
  - destruct IH as (k & Hk & Hb); [lia|].
    rewrite Hstep by lia. rewrite Hk.
    destruct (Hunit i) as [-> | ->].
    + exists k. lia.
    + exists (k + 1). lia.
Qed.

(** A walk whose steps are all equal to [s] moves by [s] per tick. *)
Lemma constant_walk_position (path : list Z) (n : nat) (step : nat -> Z)
      (s : Z) :
  (forall i, step i = s) ->
  (forall i, (i < n)%nat -> nth (S i) path 0 = nth i path 0 + step i) ->
  forall i, (i <= n)%nat -> nth i path 0 = nth 0 path 0 + s * Z.of_nat i.
Proof.
  intros Hs Hstep i. induction i as [|i IH]; intros Hi.
  - lia.
  - rewrite Hstep, IH, Hs by lia. lia.
Qed.

Lemma absorbed_false_iff (left right x : Z) :
  absorbed left right x = false <-> left < x < right.
Proof.
  unfold absorbed. rewrite orb_false_iff. lia.
Qed.

Lemma absorbed_true_iff (left right x : Z) :
  absorbed left right x = true <-> x <= left \/ x >= right.
Proof.
  unfold absorbed. rewrite orb_true_iff. lia.
Qed.






(** X4. With [left < start < right] a boundary cannot be reached in fewer
    ticks than its distance from [start]: an absorbed walk has a hit time
    of at least [min (start - left) (right - start)], and a budget below
    that distance always ends in exhaustion, strictly between the
    boundaries, with [hit_time = max_steps]. *)
Theorem no_absorption_before_distance
        (left right start : Z) (p : Q) (max_steps : Z) (g : Rng.t)
        (Hstart : left < start < right) :
  exists path t loc g',
    random_walk_absorbing left right start p max_steps g
      = (Ok (path, t, loc), g') /\
    (loc <= left \/ loc >= right ->
     Z.min (start - left) (right - start) <= t) /\
    (max_steps < Z.min (start - left) (right - start) ->
     t = max_steps /\ left < loc < right).
Proof.
  destruct (random_walk_absorbing_trace left right start p max_steps g)
    as (path & t & loc & n & Hrun & Hlen & H0 & Hn & Hstep & Hle & Hcase).
  exists path, t, loc, (Rng.advance n g). split; [exact Hrun|].
  destruct (unit_walk_position path n (step_at g p) (step_at_unit g p)
              Hstep n (Nat.le_refl n)) as (k & Hk & Hb).
  rewrite Hn, H0 in Hk.
  assert (Hinside : t = max_steps -> n = Z.to_nat max_steps ->
            (forall i, (1 <= i <= n)%nat ->
                       absorbed left right (nth i path 0) = false) ->
            left < loc < right).
  { intros _ En Hb'. destruct n as [|n'].
    - simpl in Hn. rewrite H0 in Hn. lia.
    - apply absorbed_false_iff. rewrite <- Hn. apply Hb'. lia. }
  destruct Hcase as [(Et & H1 & Habs & _)|(Et & En & Hb')].
  - apply absorbed_true_iff in Habs. split; lia.
  - pose proof (Hinside Et En Hb') as Hin. split; [lia|].
    intros _. split; assumption.
Qed.

Lemma no_absorption_before_distance_witness :
  -3 < 0 < 3 /\
  exists path t loc g',
    random_walk_absorbing (-3) 3 0 (1 # 2) 2 (Rng.const 0)
      = (Ok (path, t, loc), g') /\
    (loc <= -3 \/ loc >= 3 -> Z.min (0 - -3) (3 - 0) <= t) /\
    (2 < Z.min (0 - -3) (3 - 0) -> t = 2 /\ -3 < loc < 3).
Proof.
  split; [lia|].
  apply (no_absorption_before_distance (-3) 3 0 (1 # 2) 2 (Rng.const 0)).
  lia.
Defined.

(** X5. For [max_steps >= 0] the hit time counts the steps taken: the
    number of draws consumed is [hit_time], the location is
    [start + hit_time - 2 k] for some [0 <= k <= hit_time] (the number of
    steps down), so it is within [hit_time] of [start] and has the parity
    of [start + hit_time]. *)
Theorem hit_location_parity
        (left right start : Z) (p : Q) (max_steps : Z) (g : Rng.t)
        (Hbudget : 0 <= max_steps) :
  exists path t loc,
    random_walk_absorbing left right start p max_steps g
      = (Ok (path, t, loc), Rng.advance (Z.to_nat t) g) /\
    0 <= t /\
    exists k, loc = start + t - 2 * k /\ 0 <= k <= t.
Proof.
  destruct (random_walk_absorbing_trace left right start p max_steps g)
    as (path & t & loc & n & Hrun & Hlen & H0 & Hn & Hstep & Hle & Hcase).
  assert (Et : t = Z.of_nat n).
  { destruct Hcase as [(-> & _)|(-> & -> & _)]; lia. }
  exists path, t, loc. subst t. rewrite Nat2Z.id.
  split; [exact Hrun|]. split; [lia|].
  destruct (unit_walk_position path n (step_at g p) (step_at_unit g p)
              Hstep n (Nat.le_refl n)) as (k & Hk & Hb).
  rewrite Hn, H0 in Hk. exists k. split; assumption.
Qed.

Lemma hit_location_parity_witness :
  0 <= 4 /\
  exists path t loc,
    random_walk_absorbing (-2) 2 0 (1 # 2) 4 (Rng.const 0)
      = (Ok (path, t, loc), Rng.advance (Z.to_nat t) (Rng.const 0)) /\
    0 <= t /\
    exists k, loc = 0 + t - 2 * k /\ 0 <= k <= t.
Proof.
  split; [lia|].
  apply (hit_location_parity (-2) 2 0 (1 # 2) 4 (Rng.const 0)). lia.
Defined.

Lemma step_at_sure_up (g : Rng.t) (i : nat) :
  Rng.uniform g -> step_at g 1 i = 1.
Proof.
  intros Hg. destruct (Hg (Rng.cursor g + i)%nat) as [_ H1].
  unfold step_at, Qltb.
  destruct (Qle_bool 1 (Rng.tape g (Rng.cursor g + i))) eqn:E; [|reflexivity].
  apply Qle_bool_iff in E. exfalso. exact (Qlt_not_le _ _ H1 E).
Qed.

Lemma step_at_sure_down (g : Rng.t) (i : nat) :
  Rng.uniform g -> step_at g 0 i = -1.
Proof.
  intros Hg. destruct (Hg (Rng.cursor g + i)%nat) as [H0 _].
  unfold step_at, Qltb. apply Qle_bool_iff in H0. now rewrite H0.
Qed.





(** ** More on hitting_time *)

(** One trial of [hitting_time]: the defaults leave a budget of 10000
    ticks, so the hit time is the number of draws taken, between 1 and
    10000, and below 10000 only for a walk that was absorbed. *)
Lemma default_trial (left right start : Z) (g : Rng.t) :
  exists path t loc,
    random_walk_absorbing left right start default_p default_max_steps g
      = (Ok (path, t, loc), Rng.advance (Z.to_nat t) g) /\
    1 <= t <= 10000 /\
    (left < start < right -> t < 10000 -> loc = left \/ loc = right).
Proof.
  destruct (random_walk_absorbing_trace left right start
              default_p default_max_steps g)
    as (path & t & loc & n & Hrun & Hlen & H0 & Hn & Hstep & Hle & Hcase).
  unfold default_max_steps in *.
  assert (Et : t = Z.of_nat n).
  { destruct Hcase as [(-> & _)|(-> & -> & _)]; lia. }
  exists path, t, loc. subst t. rewrite Nat2Z.id.
  split; [exact Hrun|]. split.
  { destruct Hcase as [(_ & H1 & _)|(_ & -> & _)]; lia. }
  intros Hstart Hlt.
  destruct Hcase as [(_ & H1 & Habs & Hb)|(E & _)]; [|lia].
  apply absorbed_true_iff in Habs.
  destruct n as [|n']; [lia|].
  assert (Hprev : left < nth n' path 0 < right).
  { destruct n' as [|n'']; [now rewrite H0|].
    apply absorbed_false_iff, Hb. lia. }
  rewrite <- Hn in *. rewrite Hstep in * by lia.
  destruct (step_at_unit g default_p n') as [E | E]; rewrite E in *; lia.
Qed.

Lemma Zsum_app (xs ys : list Z) : Zsum (xs ++ ys) = Zsum xs + Zsum ys.
Proof.
  unfold Zsum. induction xs as [|x xs IH]; simpl; [reflexivity|].
  rewrite IH. lia.
Qed.

(** The accumulating loop, with what each trial contributes. *)
Lemma trials_loop_facts (left right start : Z) (idx : list Z) :
  forall (times hits : list Z) (g : Rng.t),
  exists ts ls,
    trials_loop left right start idx times hits g
      = (Ok (times ++ ts, hits ++ ls), Rng.advance (Z.to_nat (Zsum ts)) g) /\
    length ts = length idx /\
    length ls = length idx /\
    Forall (fun t => 1 <= t <= 10000) ts /\
    (left < start < right ->
     Forall (fun t => t < 10000) ts ->
     Forall (fun loc => loc = left \/ loc = right) ls).
Proof.
  induction idx as [|i idx IH]; intros times hits g.
  - exists [], []. simpl. unfold ret. rewrite !app_nil_r, advance_0.
    repeat split; auto.
  - destruct (default_trial left right start g)
      as (path & t & loc & Hrun & Ht & Hloc).
    destruct (IH (times ++ [t]) (hits ++ [loc]) (Rng.advance (Z.to_nat t) g))
      as (ts & ls & Hloop & Hlts & Hlls & Hall & Hlocs).
    exists (t :: ts), (loc :: ls).
    assert (Hnn : 0 <= Zsum ts).
    { clear -Hall. induction Hall as [|x xs Hx _ IHx]; simpl; lia. }
    split; [|repeat split].
    + cbn [trials_loop]. unfold bind. rewrite Hrun, Hloop.
      rewrite advance_advance, <- !app_assoc. simpl.
      f_equal. f_equal. unfold Zsum in *. lia.
    + simpl. now rewrite Hlts.
    + simpl. now rewrite Hlls.
    + constructor; assumption.
    + intros Hstart Hlt. inversion Hlt; subst.
      constructor; [now apply Hloc|now apply Hlocs].
Qed.

(** X8. With [n_trials <= 0] no trial is run and no draw is taken: the
    times are empty and both probabilities are [nan], the mean of an empty
    array. *)
Theorem hitting_time_no_trials
        (left right n_trials start : Z) (g : Rng.t) (Hn : n_trials <= 0) :
  hitting_time left right n_trials start g = (Ok ([], (NaN, NaN)), g).
Proof.
  unfold hitting_time. rewrite range_empty by lia. reflexivity.
Qed.

Lemma hitting_time_no_trials_witness :
  0 <= 0 /\
  hitting_time (-5) 5 0 0 (Rng.const 0) = (Ok ([], (NaN, NaN)), Rng.const 0).
Proof.
  split; [lia|].
  apply (hitting_time_no_trials (-5) 5 0 0 (Rng.const 0)). lia.
Defined.

(** X9. Whatever the boundaries and the number of trials, every hit time
    returned by [hitting_time] lies between 1 and the default budget
    10000, and the generator has advanced by exactly the sum of the hit
    times: one draw per step taken, none for the statistics. *)
Theorem hitting_times_within_budget
        (left right n_trials start : Z) (g : Rng.t) :
  exists times probs,
    hitting_time left right n_trials start g
      = (Ok (times, probs), Rng.advance (Z.to_nat (Zsum times)) g) /\
    length times = Z.to_nat n_trials /\
    Forall (fun t => 1 <= t <= 10000) times.
Proof.
  destruct (trials_loop_facts left right start (range 0 n_trials) [] [] g)
    as (ts & ls & Hloop & Hlts & _ & Hall & _).
  simpl app in Hloop.
  exists ts. eexists. split; [|split].
  - unfold hitting_time, bind. rewrite Hloop. reflexivity.
  - rewrite Hlts, range_length. f_equal. lia.
  - exact Hall.
Qed.





(** ** More on random_walk_1d *)

Lemma range_nth (lo hi : Z) (i : nat) (d : Z) :
  (i < Z.to_nat (hi - lo))%nat -> nth i (range lo hi) d = lo + Z.of_nat i.
Proof.
  intros Hi. unfold range.
  rewrite nth_indep with (d' := (fun i => lo + Z.of_nat i) O)
    by now rewrite length_map, length_seq.
  rewrite map_nth with (f := fun i => lo + Z.of_nat i).
  now rewrite seq_nth.
Qed.

(** X11. For [n_steps >= 0] the position at index [i] of the walk is
    [(i + 1) - 2 k] for some [0 <= k <= i + 1] (the number of steps down
    so far): it lies within [i + 1] of the origin and has the parity of
    [i + 1]. *)
Theorem random_walk_1d_position (n_steps : Z) (p : Q) (g : Rng.t)
        (Hn : 0 <= n_steps) :
  exists xs,
    random_walk_1d n_steps p g = (Ok xs, Rng.advance (Z.to_nat n_steps) g) /\
    forall i, (i < length xs)%nat ->
      exists k, nth i xs 0 = Z.of_nat i + 1 - 2 * k /\
                0 <= k <= Z.of_nat i + 1.
Proof.
  destruct (random_walk_1d_run n_steps p g Hn) as (xs & Hrun & Hlen & Hnth).
  exists xs. split; [exact Hrun|]. intros i Hi.
  destruct (unit_walk_position (0 :: xs) (length xs) (step_at g p)
              (step_at_unit g p)) with (i := S i) as (k & Hk & Hb).
  - intros j Hj. cbn [nth]. rewrite (Hnth j Hj). destruct j; reflexivity.
  - lia.
  - cbn [nth] in Hk. exists k. split; lia.
Qed.

Lemma random_walk_1d_position_witness :
  0 <= 4 /\
  exists xs,
    random_walk_1d 4 (1 # 2) (Rng.const 0)
      = (Ok xs, Rng.advance (Z.to_nat 4) (Rng.const 0)) /\
    forall i, (i < length xs)%nat ->
      exists k, nth i xs 0 = Z.of_nat i + 1 - 2 * k /\
                0 <= k <= Z.of_nat i + 1.
Proof.
  split; [lia|].
  apply (random_walk_1d_position 4 (1 # 2) (Rng.const 0)). lia.
Defined.

(** X12. On a uniform generator the degenerate biases fix the whole
    walk: with [p = 1] it is [1, 2, ..., n_steps], with [p = 0] it is
    [-1, -2, ..., -n_steps]. *)
Theorem random_walk_1d_sure_steps (n_steps : Z) (g : Rng.t)
        (Hg : Rng.uniform g) (Hn : 0 <= n_steps) :
  random_walk_1d n_steps 1 g
    = (Ok (range 1 (n_steps + 1)), Rng.advance (Z.to_nat n_steps) g) /\
  random_walk_1d n_steps 0 g
    = (Ok (map Z.opp (range 1 (n_steps + 1))),
       Rng.advance (Z.to_nat n_steps) g).
Proof.
  split.
  - destruct (random_walk_1d_run n_steps 1 g Hn) as (xs & Hrun & Hlen & Hnth).
    rewrite Hrun. do 2 f_equal.
    apply nth_ext with (d := 0) (d' := 0).
    + rewrite range_1_length. exact Hlen.
    + intros i Hi. rewrite range_nth by lia.
      pose proof (constant_walk_position (0 :: xs) (length xs) (step_at g 1) 1
                    (fun j => step_at_sure_up g j Hg)) as Hpos.
      specialize (Hpos ltac:(intros j Hj; cbn [nth]; rewrite (Hnth j Hj);
                             destruct j; reflexivity) (S i) ltac:(lia)).
      cbn [nth] in Hpos. lia.
  - destruct (random_walk_1d_run n_steps 0 g Hn) as (xs & Hrun & Hlen & Hnth).
    rewrite Hrun. do 2 f_equal.
    apply nth_ext with (d := 0) (d' := Z.opp 0).
    + rewrite length_map, range_1_length. exact Hlen.
    + intros i Hi. rewrite map_nth, range_nth by lia.
      pose proof (constant_walk_position (0 :: xs) (length xs) (step_at g 0)
                    (-1) (fun j => step_at_sure_down g j Hg)) as Hpos.
      specialize (Hpos ltac:(intros j Hj; cbn [nth]; rewrite (Hnth j Hj);
                             destruct j; reflexivity) (S i) ltac:(lia)).
      cbn [nth] in Hpos. lia.
Qed.

Lemma random_walk_1d_sure_steps_witness :
  Rng.uniform (Rng.const (1 # 3)) /\ 0 <= 3 /\
  random_walk_1d 3 1 (Rng.const (1 # 3))
    = (Ok (range 1 (3 + 1)), Rng.advance (Z.to_nat 3) (Rng.const (1 # 3))) /\
  random_walk_1d 3 0 (Rng.const (1 # 3))
    = (Ok (map Z.opp (range 1 (3 + 1))),
       Rng.advance (Z.to_nat 3) (Rng.const (1 # 3))).
Proof.
  assert (Hg : Rng.uniform (Rng.const (1 # 3))).
  { apply const_uniform; [unfold Qle|unfold Qlt]; simpl; lia. }
  split; [exact Hg|]. split; [lia|].
  apply (random_walk_1d_sure_steps 3 (Rng.const (1 # 3)) Hg). lia.
Defined.

(** ** theoretical_msd *)

(** X13. [theoretical_msd n_steps] has [n_steps] elements (none when
    [n_steps <= 0]) and its element at index [t] is [t + 1]. *)
Theorem theoretical_msd_elements (n_steps : Z) :
  length (theoretical_msd n_steps) = Z.to_nat n_steps /\
  forall t, (t < Z.to_nat n_steps)%nat ->
    nth t (theoretical_msd n_steps) 0 = Z.of_nat t + 1.
Proof.
  unfold theoretical_msd. split; [apply range_1_length|].
  intros t Ht. rewrite range_nth by lia. lia.
Qed.

(** ** More on mean_squared_displacement *)

Lemma Qsum_inject {A} (f : A -> Z) (l : list A) :
  (Qsum (map (fun r => inject_Z (f r)) l) == inject_Z (Zsum (map f l)))%Q.
Proof.
  induction l as [|x l IH]; [reflexivity|].
  cbn [map Qsum Zsum fold_right].
  fold (Qsum (map (fun r => inject_Z (f r)) l)). fold (Zsum (map f l)).
  rewrite IH, inject_Z_plus. reflexivity.
Qed.



(** The mean of squares at time [t] is the integer sum of the squares
    over the number of trials. *)
Lemma mean_of_squares_as_Zsum (t : nat) (a : ndarray2) :
  let total := Zsum (map (fun r => nth t r 0 * nth t r 0) (rows a)) in
  let n_trials := Z.of_nat (fst (shape a)) in
  (mean_of_squares_at t a == inject_Z total / inject_Z n_trials)%Q.
Proof.
  unfold mean_of_squares_at. cbv zeta.
  now rewrite (Qsum_inject (fun r => nth t r 0 * nth t r 0) (rows a)).
Qed.



(** Every entry of the result on a batch with at least one trial is a
    finite float: the value the general formula gives. *)
Lemma msd_entry (a : ndarray2) (t : nat) :
  well_shaped a -> (1 <= fst (shape a))%nat -> (t < snd (shape a))%nat ->
  exists q, nth t (mean_squared_displacement a) NaN = Finite q /\
            (q == mean_of_squares_at t a)%Q.
Proof.
  intros Hshape Hk Ht.
  pose proof (msd_general a t Hshape Hk Ht) as H.
  destruct (nth t (mean_squared_displacement a) NaN) as [q|];
    simpl in H; [|contradiction].
  exists q. split; [reflexivity|exact H].
Qed.

(** X14. An empty batch ([n_trials = 0]) has no trial to average: every
    one of the [n_steps] entries of the result is [nan]. *)
Theorem msd_of_no_trials (a : ndarray2) (Hempty : rows a = []) :
  mean_squared_displacement a = repeat NaN (snd (shape a)).
Proof.
  apply nth_ext with (d := NaN) (d' := NaN).
  - now rewrite msd_length, repeat_length.
  - intros t Ht. rewrite msd_length in Ht.
    rewrite msd_nth by exact Ht.
    unfold column, square. cbn [rows]. rewrite Hempty. simpl.
    now rewrite nth_repeat.
Qed.

Lemma msd_of_no_trials_witness :
  rows (mk_ndarray2 (0, 3)%nat []) = [] /\
  mean_squared_displacement (mk_ndarray2 (0, 3)%nat []) = [NaN; NaN; NaN].
Proof.
  split; [reflexivity|].
  exact (msd_of_no_trials (mk_ndarray2 (0, 3)%nat []) eq_refl).
Defined.



Lemma all_steps_lengths (n : nat) :
  Forall (fun s => length s = n) (all_steps n).
Proof.
  induction n as [|n IH]; [repeat constructor|].
  cbn [all_steps]. rewrite Forall_app, !Forall_map. split;
    (eapply Forall_impl; [|exact IH]); intros s Hs; simpl; now rewrite Hs.
Qed.

Lemma all_steps_nonempty (n : nat) : (1 <= length (all_steps n))%nat.
Proof.
  induction n as [|n IH]; [simpl; lia|].
  cbn [all_steps]. rewrite length_app, !length_map. lia.
Qed.

Lemma all_walks_well_shaped (n : nat) : well_shaped (all_walks n).
Proof.
  split; simpl.
  - now rewrite length_map.
  - rewrite Forall_map. eapply Forall_impl; [|apply all_steps_lengths].
    intros s Hs. unfold cumsum. now rewrite cumsum_from_length.
Qed.

Lemma Zsum_const {A} (c : Z) (l : list A) :
  Zsum (map (fun _ => c) l) = Z.of_nat (length l) * c.
Proof.
  induction l as [|x l IH]; [simpl; lia|].
  cbn [map Zsum fold_right length]. fold (Zsum (map (fun _ : A => c) l)).
  rewrite IH. lia.
Qed.

(** Summed over all step sequences of length [n], the squared position at
    time [t] of the walk that leaves [acc] is the number of sequences
    times [acc ^ 2 + t + 1]: the cross terms cancel. *)
Lemma sum_of_squares_over_all_steps (n : nat) :
  forall (t : nat) (acc : Z), (t < n)%nat ->
    Zsum (map (fun s => nth t (cumsum_from acc s) 0
                        * nth t (cumsum_from acc s) 0) (all_steps n))
    = Z.of_nat (length (all_steps n)) * (acc * acc + Z.of_nat t + 1).
Proof.
  induction n as [|n IH]; intros t acc Ht; [lia|].
  cbn [all_steps]. rewrite map_app, Zsum_app, !map_map, length_app, !length_map.
  cbn [cumsum_from].
  destruct t as [|t]; cbn [nth].
  - rewrite !Zsum_const. lia.
  - rewrite !IH by lia. lia.
Qed.

(** X16. Averaged over all [2 ^ n] equally likely walks of [n] steps, the
    squared displacement at every time is exactly the theoretical curve:
    [mean_squared_displacement] of that batch agrees with
    [theoretical_msd n] entry by entry (E[X_t^2] = t). *)
Theorem msd_of_all_walks_is_theoretical (n t : nat) (Ht : (t < n)%nat) :
  is_value (nth t (mean_squared_displacement (all_walks n)) NaN)
           (inject_Z (nth t (theoretical_msd (Z.of_nat n)) 0)).
Proof.
  destruct (msd_entry (all_walks n) t (all_walks_well_shaped n)
              (all_steps_nonempty n) Ht) as (q & Eq & Hq).
  rewrite Eq. simpl. rewrite Hq, mean_of_squares_as_Zsum. cbv zeta.
  unfold theoretical_msd. rewrite range_nth by lia.
  replace (1 + Z.of_nat t) with (Z.of_nat t + 1) by lia.
  cbn [all_walks rows shape fst]. rewrite map_map. unfold cumsum.
  rewrite (sum_of_squares_over_all_steps n t 0 Ht).
  rewrite inject_Z_mult.
  replace (0 * 0 + Z.of_nat t + 1) with (Z.of_nat t + 1) by lia.
  field. intros H.
  apply (inject_Z_injective (Z.of_nat (length (all_steps n))) 0) in H.
  pose proof (all_steps_nonempty n). lia.
Qed.

Lemma msd_of_all_walks_is_theoretical_witness :
  (2 < 3)%nat /\
  is_value (nth 2 (mean_squared_displacement (all_walks 3)) NaN)
           (inject_Z (nth 2 (theoretical_msd (Z.of_nat 3)) 0)).
Proof.
  split; [lia|].
  apply (msd_of_all_walks_is_theoretical 3 2). lia.
Defined.








(** ** random_walk_2d *)

Lemma cumsum2_from_length (xs : list (Z * Z)) :
  forall acc, length (cumsum2_from acc xs) = length xs.
Proof.
  induction xs as [|x xs IH]; intros acc; simpl; [reflexivity|].
  now rewrite IH.
Qed.

Lemma cumsum2_from_nth (xs : list (Z * Z)) :
  forall acc i, (i < length xs)%nat ->
    let before := match i with
                  | O => acc
                  | S j => nth j (cumsum2_from acc xs) (0, 0)
                  end in
    nth i (cumsum2_from acc xs) (0, 0)
    = (fst before + fst (nth i xs (0, 0)), snd before + snd (nth i xs (0, 0))).
Proof.
  induction xs as [|x xs IH]; intros acc i Hi; simpl in Hi; [lia|].
  destruct i as [|j]; [reflexivity|].
  cbn [cumsum2_from nth]. cbv zeta.
  rewrite IH by lia. cbv zeta.
  destruct j; reflexivity.
Qed.

Lemma take_nth {A} (d : A) (table : list A) (idx : list Z) (i : nat) :
  (i < length idx)%nat ->
  nth i (take d table idx) d = nth (Z.to_nat (nth i idx 0)) table d.
Proof.
  intros Hi. unfold take.
  rewrite nth_indep with (d' := (fun k => nth (Z.to_nat k) table d) 0)
    by now rewrite length_map.
  now rewrite map_nth with (f := fun k => nth (Z.to_nat k) table d).
Qed.

Lemma draws_nth (draws : nat -> Z) (n i : nat) :
  (i < n)%nat -> nth i (map draws (seq 0 n)) 0 = draws i.
Proof.
  intros Hi.
  rewrite nth_indep with (d' := draws O) by now rewrite length_map, length_seq.
  rewrite map_nth. now rewrite seq_nth.
Qed.

Lemma random_walk_2d_run (draws : nat -> Z) (n_steps : Z) :
  0 <= n_steps ->
  exists ps,
    random_walk_2d draws n_steps = Ok ps /\
    length ps = Z.to_nat n_steps /\
    forall i, (i < length ps)%nat ->
      displacement ps i = nth (Z.to_nat (draws i)) directions (0, 0).
Proof.
  intros Hn. unfold random_walk_2d, randint_n.
  destruct (n_steps <? 0) eqn:E; [lia|].
  set (idx := map draws (seq 0 (Z.to_nat n_steps))).
  assert (Hidx : length idx = Z.to_nat n_steps).
  { subst idx. now rewrite length_map, length_seq. }
  assert (Htake : length (take (0, 0) directions idx) = Z.to_nat n_steps).
  { unfold take. now rewrite length_map. }
  eexists. split; [reflexivity|]. split.
  { now rewrite cumsum2_from_length. }
  intros i Hi. rewrite cumsum2_from_length, Htake in Hi.
  unfold displacement. cbv zeta.
  rewrite (cumsum2_from_nth _ (0, 0) i) by lia. cbv zeta.
  rewrite take_nth by lia. subst idx. rewrite draws_nth by lia.
  destruct (nth (Z.to_nat (draws i)) directions (0, 0)) as [dx dy].
  destruct i; cbn [fst snd]; f_equal; lia.
Qed.

Lemma direction_cases (k : Z) :
  0 <= k < 4 ->
  let d := nth (Z.to_nat k) directions (0, 0) in
  d = (1, 0) \/ d = (-1, 0) \/ d = (0, 1) \/ d = (0, -1).
Proof.
  intros Hk.
  assert (H : k = 0 \/ k = 1 \/ k = 2 \/ k = 3) by lia.
  destruct H as [-> | [-> | [-> | ->]]]; simpl; auto.
Qed.

(** X19. For [n_steps >= 0] and draws in [0, 4) the planar walk has
    exactly [n_steps] positions, and the displacement into each position
    (from the origin for the first) is the lattice direction its draw
    selects: one of (1,0), (-1,0), (0,1), (0,-1). *)
Theorem random_walk_2d_lattice_steps (draws : nat -> Z) (n_steps : Z)
        (Hn : 0 <= n_steps) (Hd : draws_below 4 draws) :
  exists ps,
    random_walk_2d draws n_steps = Ok ps /\
    Z.of_nat (length ps) = n_steps /\
    forall i, (i < length ps)%nat ->
      displacement ps i = nth (Z.to_nat (draws i)) directions (0, 0) /\
      In (displacement ps i) directions.
Proof.
  destruct (random_walk_2d_run draws n_steps Hn) as (ps & Hrun & Hlen & Hd').
  exists ps. split; [exact Hrun|]. split; [lia|].
  intros i Hi. split; [now apply Hd'|].
  rewrite (Hd' i Hi).
  destruct (direction_cases (draws i) (Hd i)) as [E | [E | [E | E]]];
    rewrite E; simpl; auto.
Qed.

Lemma random_walk_2d_lattice_steps_witness :
  0 <= 3 /\ draws_below 4 (fun i => Z.of_nat (i mod 4)) /\
  exists ps,
    random_walk_2d (fun i => Z.of_nat (i mod 4)) 3 = Ok ps /\
    Z.of_nat (length ps) = 3 /\
    forall i, (i < length ps)%nat ->
      displacement ps i
      = nth (Z.to_nat ((fun i => Z.of_nat (i mod 4)) i)) directions (0, 0) /\
      In (displacement ps i) directions.
Proof.
  assert (Hd : draws_below 4 (fun i => Z.of_nat (i mod 4))).
  { intros i. pose proof (Nat.mod_upper_bound i 4). lia. }
  split; [lia|]. split; [exact Hd|].
  apply (random_walk_2d_lattice_steps (fun i => Z.of_nat (i mod 4)) 3);
    [lia|exact Hd].
Defined.

(** X20. [random_walk_2d] with [n_steps = 0] returns the empty walk, and
    with [n_steps < 0] it raises [ValueError]: [np.random.randint]
    refuses a negative size. *)
Theorem random_walk_2d_no_steps (draws : nat -> Z) (n_steps : Z)
        (Hn : n_steps <= 0) :
  random_walk_2d draws n_steps
  = if n_steps =? 0 then Ok [] else Raise ValueError.
Proof.
  unfold random_walk_2d, randint_n.
  destruct (n_steps <? 0) eqn:E.
  - destruct (n_steps =? 0) eqn:E0; [lia|reflexivity].
  - assert (n_steps = 0) as -> by lia. reflexivity.
Qed.

Lemma random_walk_2d_no_steps_witness :
  -2 <= 0 /\ random_walk_2d (fun _ => 0) (-2) = Raise ValueError.
Proof.
  split; [lia|].
  apply (random_walk_2d_no_steps (fun _ => 0) (-2)). lia.
Defined.

(** X21. For [n_steps >= 0] and draws in [0, 4) the position at index
    [i] is within Manhattan distance [i + 1] of the origin, and the sum
    of its coordinates has the parity of [i + 1]. *)
Theorem random_walk_2d_manhattan (draws : nat -> Z) (n_steps : Z)
        (Hn : 0 <= n_steps) (Hd : draws_below 4 draws) :
  exists ps,
    random_walk_2d draws n_steps = Ok ps /\
    forall i, (i < length ps)%nat ->
      let x := fst (nth i ps (0, 0)) in
      let y := snd (nth i ps (0, 0)) in
      Z.abs x + Z.abs y <= Z.of_nat i + 1 /\
      exists k, x + y = Z.of_nat i + 1 - 2 * k.
Proof.
  destruct (random_walk_2d_run draws n_steps Hn) as (ps & Hrun & Hlen & Hd').
  exists ps. split; [exact Hrun|].
  intros i. induction i as [|i IH]; intros Hi; cbv zeta.
  - pose proof (Hd' O Hi) as H. unfold displacement in H. cbv zeta in H.
    cbn [fst snd] in H.
    destruct (direction_cases (draws O) (Hd O)) as [E | [E | [E | E]]];
      rewrite E in H; injection H as Hx Hy;
      (split; [lia|]); [exists 0|exists 1|exists 0|exists 1]; lia.
  - specialize (IH ltac:(lia)). cbv zeta in IH.
    destruct IH as [Habs (k & Hk)].
    pose proof (Hd' (S i) Hi) as H. unfold displacement in H. cbv zeta in H.
    destruct (direction_cases (draws (S i)) (Hd (S i)))
      as [E | [E | [E | E]]];
      rewrite E in H; injection H as Hx Hy;
      (split; [lia|]);
      [exists k|exists (k + 1)|exists k|exists (k + 1)]; lia.
Qed.

Lemma random_walk_2d_manhattan_witness :
  0 <= 3 /\ draws_below 4 (fun i => Z.of_nat (i mod 4)) /\
  exists ps,
    random_walk_2d (fun i => Z.of_nat (i mod 4)) 3 = Ok ps /\
    forall i, (i < length ps)%nat ->
      let x := fst (nth i ps (0, 0)) in
      let y := snd (nth i ps (0, 0)) in
      Z.abs x + Z.abs y <= Z.of_nat i + 1 /\
      exists k, x + y = Z.of_nat i + 1 - 2 * k.
Proof.
  assert (Hd : draws_below 4 (fun i => Z.of_nat (i mod 4))).
  { intros i. pose proof (Nat.mod_upper_bound i 4). lia. }
  split; [lia|]. split; [exact Hd|].
  apply (random_walk_2d_manhattan (fun i => Z.of_nat (i mod 4)) 3);
    [lia|exact Hd].
Defined.

(** ** many_walks_1D *)

(** The steps of row [i] of the batch, as [np.random.choice] picks them. *)
Lemma choice_run (draws : nat -> Z) (a : list Z) (n_rows n_cols : Z) :
  0 <= n_rows -> 0 <= n_cols ->
  choice draws a n_rows n_cols
  = Ok (map (fun i => take 0 a (map (fun j => draws (i * Z.to_nat n_cols + j)%nat)
                                    (seq 0 (Z.to_nat n_cols))))
            (seq 0 (Z.to_nat n_rows))).
Proof.
  intros Hr Hc. unfold choice.
  destruct (n_rows <? 0) eqn:Er; [lia|].
  destruct (n_cols <? 0) eqn:Ec; [lia|]. reflexivity.
Qed.

Lemma sign_steps (draws : nat -> Z) (idx : list nat) :
  draws_below 2 draws ->
  Forall (fun x => x = 1 \/ x = -1) (take 0 [-1; 1] (map draws idx)).
Proof.
  intros Hd. unfold take. rewrite !Forall_map. apply Forall_forall.
  intros j _. pose proof (Hd j) as Hj.
  assert (H : draws j = 0 \/ draws j = 1) by lia.
  destruct H as [-> | ->]; simpl; auto.
Qed.

Lemma cumsum_unit_walk (xs : list Z) :
  Forall (fun x => x = 1 \/ x = -1) xs -> unit_walk (cumsum xs).
Proof.
  intros Hxs i Hi. unfold cumsum in *. rewrite cumsum_from_length in Hi.
  cbv zeta. rewrite cumsum_from_nth by exact Hi.
  rewrite Forall_forall in Hxs.
  destruct (Hxs (nth i xs 0) (nth_In xs 0 Hi)) as [-> | ->];
    destruct i; lia.
Qed.

Lemma many_walks_1D_run (draws : nat -> Z) (n_steps n_trials : Z) :
  0 <= n_steps -> 0 <= n_trials ->
  many_walks_1D draws n_steps n_trials
  = Ok (mk_ndarray2
          (Z.to_nat n_trials, Z.to_nat n_steps)
          (map (fun i =>
                  cumsum (take 0 [-1; 1]
                            (map (fun j => draws (i * Z.to_nat n_steps + j)%nat)
                                 (seq 0 (Z.to_nat n_steps)))))
               (seq 0 (Z.to_nat n_trials)))).
Proof.
  intros Hs Ht. unfold many_walks_1D.
  rewrite choice_run by assumption. now rewrite map_map.
Qed.

(** X22. For non-negative sizes and draws in [0, 2) the batch has shape
    [(n_trials, n_steps)], every row has [n_steps] positions, and every
    row is a unit-step walk from the origin: its first position is +1 or
    -1 and neighbours differ by exactly +1 or -1. *)
Theorem many_walks_1D_rows_are_walks
        (draws : nat -> Z) (n_steps n_trials : Z)
        (Hs : 0 <= n_steps) (Ht : 0 <= n_trials)
        (Hd : draws_below 2 draws) :
  exists a,
    many_walks_1D draws n_steps n_trials = Ok a /\
    shape a = (Z.to_nat n_trials, Z.to_nat n_steps) /\
    well_shaped a /\
    Forall unit_walk (rows a).
Proof.
  eexists. split; [apply many_walks_1D_run; assumption|].
  split; [reflexivity|]. split; [split|]; cbn [rows shape fst snd].
  - now rewrite length_map, length_seq.
  - rewrite Forall_map. apply Forall_forall. intros i _.
    unfold cumsum, take.
    now rewrite cumsum_from_length, !length_map, length_seq.
  - rewrite Forall_map. apply Forall_forall. intros i _.
    apply cumsum_unit_walk.
    rewrite <- (map_map (fun j => (i * Z.to_nat n_steps + j)%nat) draws).
    now apply sign_steps.
Qed.

Lemma many_walks_1D_rows_are_walks_witness :
  0 <= 3 /\ 0 <= 2 /\ draws_below 2 (fun i => Z.of_nat (i mod 2)) /\
  exists a,
    many_walks_1D (fun i => Z.of_nat (i mod 2)) 3 2 = Ok a /\
    shape a = (Z.to_nat 2, Z.to_nat 3) /\
    well_shaped a /\
    Forall unit_walk (rows a).
Proof.
  assert (Hd : draws_below 2 (fun i => Z.of_nat (i mod 2))).
  { intros i. pose proof (Nat.mod_upper_bound i 2). lia. }
  split; [lia|]. split; [lia|]. split; [exact Hd|].
  apply (many_walks_1D_rows_are_walks (fun i => Z.of_nat (i mod 2)) 3 2);
    [lia|lia|exact Hd].
Defined.

(** X23. A negative [n_steps] or [n_trials] makes [many_walks_1D] raise
    [ValueError]: [np.random.choice] refuses a negative dimension. *)
Theorem many_walks_1D_negative_size
        (draws : nat -> Z) (n_steps n_trials : Z)
        (Hneg : n_steps < 0 \/ n_trials < 0) :
  many_walks_1D draws n_steps n_trials = Raise ValueError.
Proof.
  unfold many_walks_1D, choice.
  destruct (n_trials <? 0) eqn:Et; [reflexivity|].
  destruct (n_steps <? 0) eqn:Es; [reflexivity|]. lia.
Qed.

Lemma many_walks_1D_negative_size_witness :
  (5 < 0 \/ -1 < 0) /\ many_walks_1D (fun _ => 0) 5 (-1) = Raise ValueError.
Proof.
  split; [lia|].
  apply (many_walks_1D_negative_size (fun _ => 0) 5 (-1)). lia.
Defined.

(** X24. Every row of the batch is a walk that [random_walk_1d] returns
    with the default bias [p = 0.5] on some uniform generator: the batch
    generator produces nothing the single-walk generator cannot. *)
Theorem many_walks_1D_rows_are_random_walk_1d
        (draws : nat -> Z) (n_steps n_trials : Z)
        (Hs : 0 <= n_steps) (Ht : 0 <= n_trials)
        (Hd : draws_below 2 draws) :
  exists a,
    many_walks_1D draws n_steps n_trials = Ok a /\
    forall r, In r (rows a) ->
      exists g, Rng.uniform g /\
                random_walk_1d n_steps default_p g
                = (Ok r, Rng.advance (Z.to_nat n_steps) g).
Proof.
  eexists. split; [apply many_walks_1D_run; assumption|].
  cbn [rows]. intros r Hr. apply in_map_iff in Hr.
  destruct Hr as (i & <- & _).
  set (pick := fun j => draws (i * Z.to_nat n_steps + j)%nat).
  exists (Rng.mk (fun j => if pick j =? 1 then 0%Q else default_p) 0).
  split.
  - intros j. cbn [Rng.tape]. unfold default_p.
    destruct (pick j =? 1); split; try (unfold Qle; simpl; lia);
      unfold Qlt; simpl; lia.
  - unfold random_walk_1d, bind, rand_n.
    destruct (n_steps <? 0) eqn:E; [lia|].
    unfold ret. cbn [Rng.tape Rng.cursor]. do 3 f_equal.
    unfold where_lt, take. rewrite !map_map.
    apply map_ext. intros j. cbn [Nat.add].
    pose proof (Hd (i * Z.to_nat n_steps + j)%nat) as Hj. fold (pick j) in Hj.
    assert (H : pick j = 0 \/ pick j = 1) by lia.
    destruct H as [-> | ->]; reflexivity.
Qed.

Lemma many_walks_1D_rows_are_random_walk_1d_witness :
  0 <= 3 /\ 0 <= 2 /\ draws_below 2 (fun i => Z.of_nat (i mod 2)) /\
  exists a,
    many_walks_1D (fun i => Z.of_nat (i mod 2)) 3 2 = Ok a /\
    forall r, In r (rows a) ->
      exists g, Rng.uniform g /\
                random_walk_1d 3 default_p g
                = (Ok r, Rng.advance (Z.to_nat 3) g).
Proof.
  assert (Hd : draws_below 2 (fun i => Z.of_nat (i mod 2))).
  { intros i. pose proof (Nat.mod_upper_bound i 2). lia. }
  split; [lia|]. split; [lia|]. split; [exact Hd|].
  apply (many_walks_1D_rows_are_random_walk_1d
           (fun i => Z.of_nat (i mod 2)) 3 2); [lia|lia|exact Hd].
Defined.

(** ** Instances on concrete inputs *)


Lemma hitting_times_within_budget_witness :
  exists times probs,
    hitting_time (-1) 1 2 0 (Rng.const 0)
      = (Ok (times, probs),
         Rng.advance (Z.to_nat (Zsum times)) (Rng.const 0)) /\
    length times = Z.to_nat 2 /\
    Forall (fun t => 1 <= t <= 10000) times.
Proof.
  apply (hitting_times_within_budget (-1) 1 2 0 (Rng.const 0)).
Defined.

Lemma theoretical_msd_elements_witness :
  length (theoretical_msd 5) = Z.to_nat 5 /\
  forall t, (t < Z.to_nat 5)%nat -> nth t (theoretical_msd 5) 0 = Z.of_nat t + 1.
Proof.
  apply (theoretical_msd_elements 5).
Defined.
